(** * molencoder: the one-hot SMILES featurizer

    A shallow embedding of [src/molencoder/featurizers.py], class
    [OneHotFeaturizer], and the properties of its vocabulary builder,
    encoder and decoder.

    Modelling conventions.
    - A Python [str] is a [list ascii]: a sequence of characters, a
      character being a code point below 256 (SMILES text is ASCII).  A
      charset is a list of characters (the docstring of [__init__]: a list
      of strings, each of length 1).
    - A Python [int] is a [Z]; indices that come out of [list.index],
      [range] and [np.argmax] are never negative and are [nat].
    - A NumPy array is the nested list it is built from, and [np.array]
      and [np.asarray] are the identity.  That is exact for arrays of
      regular shape.  On a batch of unequal shapes NumPy depends on its
      version (an object array before 1.24, a [ValueError] since), so
      what is stated about the success of a whole batch is stated for
      batches of regular shape ([equal_heights], [regular]).
    - A raised exception is the [Raise] case of [result]; a method that
      assigns to [self] returns the new object next to its result. *)

From Stdlib Require Import ZArith Ascii String.
From stdpp Require Import base tactics option list sorting gmap sets strings.

Local Open Scope Z_scope.
#[local] Set Warnings "-clear-no-such-hyp".

(** ** Python values *)

Abbreviation str := (list ascii) (only parsing).

(** A string literal as a [str]. *)
Definition chars (s : string) : str := list_ascii_of_string s.

(** The padding character of [str.ljust]: a space. *)
Definition space : ascii := " "%char.

(** The built-in exceptions this code can raise. *)
Inductive exn : Set :=
  | ValueError      (* list.index: x is not in list; argmax of an empty row *)
  | IndexError      (* list index out of range *)
  | TypeError       (* len(None), None[oh] *)
  | AttributeError. (* None.index *)

Inductive result (A : Type) : Type :=
  | Ok (a : A)
  | Raise (e : exn).
Arguments Ok {A} a.
Arguments Raise {A} e.

Global Instance result_ret : MRet result := λ A a, Ok a.
Global Instance result_bind : MBind result := λ A B f m,
  match m with
  | Ok a => f a
  | Raise e => Raise e
  end.

Definition is_Ok {A} (m : result A) : Prop := ∃ a, m = Ok a.

(** ** Characters: order and whitespace *)

(** [sorted] on one-character strings compares code points. *)
Definition char_le (a b : ascii) : Prop := (N_of_ascii a <= N_of_ascii b)%N.
Definition char_lt (a b : ascii) : Prop := (N_of_ascii a < N_of_ascii b)%N.

Global Instance char_le_dec : RelDecision char_le.
Proof. intros a b. unfold char_le. apply _. Defined.

(** [sorted(l)] *)
Definition sorted (l : list ascii) : list ascii := merge_sort char_le l.

(** [str.isspace] of one character, for the code points below 256:
    U+0009..U+000D, U+001C..U+001F, U+0020, U+0085 and U+00A0. *)
Definition isspace (c : ascii) : bool :=
  let n := N_of_ascii c in
  ((9 <=? n) && (n <=? 13) || (28 <=? n) && (n <=? 32)
   || (n =? 133) || (n =? 160))%N.

(** [str.lstrip()], [str.rstrip()] and [str.strip()] without argument. *)
Fixpoint lstrip (s : str) : str :=
  match s with
  | [] => []
  | c :: s' => if isspace c then lstrip s' else s
  end.

Definition rstrip (s : str) : str := reverse (lstrip (reverse s)).

Definition strip (s : str) : str := rstrip (lstrip s).

(** ** The featurizer object *)

Record OneHotFeaturizer : Type := {
  charset : option (list ascii);
  pad_length : Z
}.

(** [__init__(self, charset=None, padlength=120)] *)
Definition default_padlength : Z := 120.

Definition init (charset : option (list ascii)) (padlength : Z)
  : OneHotFeaturizer :=
  {| charset := charset; pad_length := padlength |}.

(** [_create_charset]: the two loops add every character of every string
    to a set; the result is the space followed by the sorted elements. *)
Definition add_chars (s : gset ascii) (smile : str) : gset ascii :=
  foldl (λ s c, {[c]} ∪ s) s smile.

Definition char_set (smiles : list str) : gset ascii :=
  foldl add_chars ∅ smiles.

Definition _create_charset (smiles : list str) : list ascii :=
  space :: sorted (elements (char_set smiles)).

(** [one_hot_array(i)]: [int(ix == i)] for [ix] in [range(len(charset))]. *)
Definition one_hot_row (n i : nat) : list Z :=
  (λ ix, Z.b2z (bool_decide (ix = i))) <$> seq 0 n.

Definition one_hot_array (self : OneHotFeaturizer) (i : nat)
  : result (list Z) :=
  match charset self with
  | None => Raise TypeError
  | Some cs => Ok (one_hot_row (length cs) i)
  end.

(** [one_hot_index(c)]: [charset.index(c)], the first position of [c]. *)
Definition index (cs : list ascii) (c : ascii) : result nat :=
  match list_find (c =.) cs with
  | Some (i, _) => Ok i
  | None => Raise ValueError
  end.

Definition one_hot_index (self : OneHotFeaturizer) (c : ascii)
  : result nat :=
  match charset self with
  | None => Raise AttributeError
  | Some cs => index cs c
  end.

(** [pad_smile(smile)]: [smile.ljust(pad_length)] appends spaces up to the
    width and returns the string as it is when it is already that long. *)
Definition ljust (s : str) (width : Z) : str :=
  s ++ replicate (Z.to_nat (width - Z.of_nat (length s))) space.

Definition pad_smile (self : OneHotFeaturizer) (smile : str) : str :=
  ljust smile (pad_length self).

(** [one_hot_encoded(smile)]: one row per character of the padded string,
    left to right; the first failing lookup raises. *)
Definition one_hot_encoded (self : OneHotFeaturizer) (smile : str)
  : result (list (list Z)) :=
  mapM (λ x, i ← one_hot_index self x; one_hot_array self i)
       (pad_smile self smile).

(** [featurize(smiles)]: derives and stores the charset when there is
    none, then encodes every string.  The arguments [verbose] and
    [log_every_n] are not used by the method.  The closing [np.array] is
    the identity on the list of matrices, which is exact when they have
    the same height (see the conventions above). *)
Definition featurize (self : OneHotFeaturizer) (smiles : list str)
  : OneHotFeaturizer * result (list (list (list Z))) :=
  let self' :=
    match charset self with
    | None => {| charset := Some (_create_charset smiles);
                 pad_length := pad_length self |}
    | Some _ => self
    end in
  (self', mapM (one_hot_encoded self') smiles).

(** ** The decoder *)

(** [self.charset[oh]] *)
Definition getitem (cs : option (list ascii)) (oh : nat) : result ascii :=
  match cs with
  | None => Raise TypeError
  | Some cs =>
      match cs !! oh with
      | Some c => Ok c
      | None => Raise IndexError
      end
  end.

Section Decoder.
(** The entries of a decoded array are numbers of some dtype; [gt] is
    its comparison [>]. *)
Context {A : Type} (gt : A → A → bool).

(** [np.argmax] of a one-dimensional array: a scan that keeps the first
    position of the largest entry seen, replaced only by a strictly
    larger one; an empty array is a [ValueError]. *)
Fixpoint argmax_from (best : nat) (bv : A) (k : nat) (r : list A) : nat :=
  match r with
  | [] => best
  | x :: r' =>
      if gt x bv then argmax_from k x (S k) r'
      else argmax_from best bv (S k) r'
  end.

Definition argmax (r : list A) : result nat :=
  match r with
  | [] => Raise ValueError
  | x :: r' => Ok (argmax_from 0%nat x 1%nat r')
  end.

(** The body of the inner loop: [oh = np.argmax(z[i][j])] and the
    character [self.charset[oh]] appended to [s]. *)
Definition untransform_char (self : OneHotFeaturizer) (row : list A)
  : result ascii :=
  oh ← argmax row; getitem (charset self) oh.

(** [untransform(z)]: every matrix gives the one-element list
    [[s.strip()]]. *)
Definition untransform (self : OneHotFeaturizer) (z : list (list (list A)))
  : result (list (list str)) :=
  mapM (λ zi, s ← mapM (untransform_char self) zi; mret [strip s]) z.
End Decoder.

(** ** The scenario of the specification *)

Definition scenario : OneHotFeaturizer :=
  init (Some (chars " CNO")) 5.

(** ** Vocabulary of the statements *)

(** [sum(row)] *)
Definition row_sum (row : list Z) : Z := foldr Z.add 0 row.

(** The position [charset.index(c)] returns when [c] is in the charset. *)
Definition position (cs : list ascii) (c : ascii) : nat :=
  match list_find (c =.) cs with
  | Some (i, _) => i
  | None => 0%nat
  end.

(** [len(s)] *)
Definition len (s : str) : Z := Z.of_nat (length s).

(** A string that [strip] leaves alone: neither its first nor its last
    character is whitespace. *)
Definition no_outer_whitespace (s : str) : Prop :=
  (∀ c, head s = Some c → isspace c = false) ∧
  (∀ c, last s = Some c → isspace c = false).

(** The strings of a corpus give matrices of the same height: their
    padded lengths [max(len(s), pad_length)] agree, as they do when no
    string is longer than the pad length. *)
Definition equal_heights (pad : Z) (smiles : list str) : Prop :=
  ∀ s1 s2, s1 ∈ smiles → s2 ∈ smiles →
           Z.max (len s1) pad = Z.max (len s2) pad.

(** A batch of regular shape: all matrices have the same number of rows
    and all rows the same number of columns, so that [np.array] builds the
    three-dimensional array of it in every version. *)
Definition regular (batch : list (list (list Z))) : Prop :=
  (∀ m1 m2, m1 ∈ batch → m2 ∈ batch → length m1 = length m2)
  ∧ (∀ m1 m2 r1 r2, m1 ∈ batch → m2 ∈ batch → r1 ∈ m1 → r2 ∈ m2 →
                    length r1 = length r2).

(** The comparison [>] of a dtype without NaN: a strict weak order. *)
Record strict_weak_order {A : Type} (gt : A → A → bool) : Prop := {
  gt_irrefl x : gt x x = false;
  gt_trans x y z : gt x y = true → gt y z = true → gt x z = true;
  gt_cotrans x y z : gt x y = true → gt x z = true ∨ gt z y = true
}.


(** ** The base class [Featurizer] *)

(** The exception of the abstract [_featurize]. *)
Inductive NotImplemented : Set := NotImplementedError.

Section Featurizer.
(** [Mol] is the type of the molecule objects, a feature vector is a
    one-dimensional array over [Feat], and [E] is what the [_featurize]
    of the class at hand can raise ([inl e]: [e] is raised). *)
Context {Mol Feat E : Type}.
Context (_featurize : Mol → E + list Feat).

(** The loop of [Featurizer.featurize]: [features.append(...)] for every
    molecule in turn, [np.array([])] standing for a molecule that is
    [None]; an exception of [_featurize] ends the call. *)
Fixpoint featurize_loop (features : list (list Feat))
    (mols : list (option Mol)) : E + list (list Feat) :=
  match mols with
  | [] => inr features
  | None :: rest => featurize_loop (features ++ [[]]) rest
  | Some mol :: rest =>
      match _featurize mol with
      | inl e => inl e
      | inr x => featurize_loop (features ++ [x]) rest
      end
  end.

(** [Featurizer.featurize(mols)].  The closing [np.asarray(features)] is
    the identity on the list of arrays, which is exact when they have the
    same length (see the conventions above). *)
Definition Featurizer_featurize (mols : list (option Mol))
  : E + list (list Feat) :=
  featurize_loop [] mols.

(** [Featurizer.__call__(mols)] *)
Definition Featurizer_call (mols : list (option Mol))
  : E + list (list Feat) :=
  Featurizer_featurize mols.

(** What [featurize] pairs a molecule with: the empty array for [None],
    the feature vector of [_featurize] otherwise. *)
Definition feature_of (mol : option Mol) (x : list Feat) : Prop :=
  match mol with
  | None => x = []
  | Some m => _featurize m = inr x
  end.
End Featurizer.

(** [Featurizer._featurize(mol)]: the base class defines no feature. *)
Definition Featurizer__featurize {Mol Feat : Type} (mol : Mol)
  : NotImplemented + list Feat :=
  inl NotImplementedError.

(** [OneHotFeaturizer.__call__(smiles)]: inherited, and it calls the
    [featurize] of the class. *)
Definition call (self : OneHotFeaturizer) (smiles : list str)
  : OneHotFeaturizer * result (list (list (list Z))) :=
  featurize self smiles.

(** * Properties *)

(** ** The exception monad *)

Section result_lemmas.
Context {A B : Type} (f : A → result B).

Lemma mapM_nil : mapM f [] = Ok [].
Proof. reflexivity. Qed.

Lemma mapM_cons x l :
  mapM f (x :: l) = y ← f x; k ← mapM f l; mret (y :: k).
Proof. reflexivity. Qed.

Lemma mapM_Ok_Forall2 l k :
  mapM f l = Ok k ↔ Forall2 (λ x y, f x = Ok y) l k.
Proof.
  revert k. induction l as [|x l IH]; intros k.
  - rewrite mapM_nil. split.
    + intros [= <-]. constructor.
    + intros ->%Forall2_nil_inv_l. done.
  - rewrite mapM_cons. split.
    + destruct (f x) as [y|e] eqn:Hx; simpl; [|done].
      destruct (mapM f l) as [k'|e] eqn:Hl; simpl; [|done].
      intros [= <-]. constructor; [done|]. by apply IH.
    + intros (y & k' & Hy & Hk & ->)%Forall2_cons_inv_l.
      rewrite Hy. simpl. apply IH in Hk. by rewrite Hk.
Qed.

Lemma mapM_Ok_length l k : mapM f l = Ok k → length k = length l.
Proof. intros H%mapM_Ok_Forall2. symmetry. by eapply Forall2_length. Qed.

Lemma mapM_Ok_fmap (g : A → B) l :
  Forall (λ x, f x = Ok (g x)) l → mapM f l = Ok (g <$> l).
Proof.
  intros H. apply mapM_Ok_Forall2. induction H; simpl; by constructor.
Qed.

Lemma mapM_is_Ok l : is_Ok (mapM f l) ↔ Forall (λ x, is_Ok (f x)) l.
Proof.
  split.
  - intros [k Hk%mapM_Ok_Forall2]. induction Hk; constructor; [by eexists|done].
  - induction 1 as [|x l [y Hy] _ [k Hk]].
    + by eexists.
    + exists (y :: k). rewrite mapM_cons, Hy. simpl. by rewrite Hk.
Qed.

(** When [e] is the only exception [f] raises on the elements of [l],
    one failing element makes the whole traversal raise [e]. *)
Lemma mapM_Raise e l x :
  Forall (λ x, is_Ok (f x) ∨ f x = Raise e) l →
  x ∈ l → f x = Raise e → mapM f l = Raise e.
Proof.
  intros Hall Hin Hx. induction Hall as [|y l Hy _ IH].
  - by apply elem_of_nil in Hin.
  - rewrite mapM_cons. apply elem_of_cons in Hin as [->|Hin].
    + by rewrite Hx.
    + destruct Hy as [[b ->]| ->]; [|done]. simpl. by rewrite (IH Hin).
Qed.

(** The first element that raises decides the exception. *)
Lemma mapM_Raise_first e l1 x l2 :
  Forall (λ x, is_Ok (f x)) l1 → f x = Raise e →
  mapM f (l1 ++ x :: l2) = Raise e.
Proof.
  intros Hall Hx. induction Hall as [|y l [b Hy] _ IH]; cbn [app].
  - rewrite mapM_cons. by rewrite Hx.
  - rewrite mapM_cons, Hy. simpl. by rewrite IH.
Qed.
End result_lemmas.

(** ** Characters *)

Lemma N_of_ascii_inj a b : N_of_ascii a = N_of_ascii b → a = b.
Proof.
  intros H. rewrite <-(ascii_N_embedding a), <-(ascii_N_embedding b).
  by rewrite H.
Qed.

Global Instance char_le_total : Total char_le.
Proof. intros a b. unfold char_le. lia. Qed.

Global Instance char_le_trans : Transitive char_le.
Proof. intros a b c. unfold char_le. lia. Qed.

Global Instance char_le_antisymm : AntiSymm (=) char_le.
Proof. intros a b ??. apply N_of_ascii_inj. unfold char_le in *. lia. Qed.

Lemma char_lt_le_ne a b : char_lt a b ↔ char_le a b ∧ a ≠ b.
Proof.
  unfold char_lt, char_le. split.
  - intros H. split; [lia|]. intros ->. lia.
  - intros [H Hne]. destruct (decide (N_of_ascii a = N_of_ascii b)) as [E|E].
    + by apply N_of_ascii_inj in E.
    + lia.
Qed.

Lemma isspace_space : isspace space = true.
Proof. reflexivity. Qed.

(** ** [sorted] *)

Lemma sorted_Sorted l : Sorted char_le (sorted l).
Proof. apply Sorted_merge_sort, _. Qed.

Lemma sorted_Permutation l : sorted l ≡ₚ l.
Proof. apply merge_sort_Permutation. Qed.

Lemma elem_of_sorted c l : c ∈ sorted l ↔ c ∈ l.
Proof. by rewrite sorted_Permutation. Qed.

(** The order in which [list(s)] enumerates the set does not show in the
    sorted list. *)
Lemma sorted_unique l1 l2 : l1 ≡ₚ l2 → sorted l1 = sorted l2.
Proof.
  intros E. apply (Sorted_unique char_le); [apply sorted_Sorted..|].
  by rewrite !sorted_Permutation.
Qed.

Lemma Sorted_NoDup_strict l :
  Sorted char_le l → NoDup l → StronglySorted char_lt l.
Proof.
  intros Hs%(Sorted_StronglySorted char_le). induction Hs as [|x l _ IH Hx].
  - constructor.
  - intros [Hnin Hnd]%NoDup_cons. constructor; [by apply IH|].
    rewrite Forall_forall in Hx |- *. intros y Hy.
    apply char_lt_le_ne. split; [by apply Hx|]. by intros ->.
Qed.

(** ** The vocabulary builder *)

Lemma elem_of_add_chars c s smile :
  c ∈ add_chars s smile ↔ c ∈ s ∨ c ∈ smile.
Proof.
  unfold add_chars. revert s. induction smile as [|x smile IH]; intros s; simpl.
  - set_solver.
  - rewrite IH. set_solver.
Qed.

Lemma elem_of_foldl_add_chars c s smiles :
  c ∈ foldl add_chars s smiles ↔ c ∈ s ∨ ∃ smile, smile ∈ smiles ∧ c ∈ smile.
Proof.
  revert s. induction smiles as [|x smiles IH]; intros s; simpl.
  - set_solver.
  - rewrite IH, elem_of_add_chars. split.
    + intros [[?|?]|(smile & ? & ?)]; [by left|right; exists x|right; exists smile];
        set_solver.
    + intros [?|(smile & [->|?]%elem_of_cons & ?)]; [by left; left|by left; right|].
      right. by exists smile.
Qed.

Lemma elem_of_char_set c smiles :
  c ∈ char_set smiles ↔ ∃ smile, smile ∈ smiles ∧ c ∈ smile.
Proof.
  unfold char_set. rewrite elem_of_foldl_add_chars. set_solver.
Qed.

Lemma elem_of_create_charset c smiles :
  c ∈ _create_charset smiles ↔ c = space ∨ ∃ smile, smile ∈ smiles ∧ c ∈ smile.
Proof.
  unfold _create_charset.
  by rewrite elem_of_cons, elem_of_sorted, elem_of_elements, elem_of_char_set.
Qed.

(** The padding character is at index 0. *)
Lemma create_charset_head smiles : _create_charset smiles !! 0%nat = Some space.
Proof. reflexivity. Qed.

(** After index 0 the charset is strictly increasing in code point order,
    so sorted and without duplicates. *)
Lemma create_charset_tail_sorted smiles :
  StronglySorted char_lt (tail (_create_charset smiles)).
Proof.
  simpl. apply Sorted_NoDup_strict; [apply sorted_Sorted|].
  rewrite sorted_Permutation. apply NoDup_elements.
Qed.

(** The charset is a function of the set of characters of the corpus:
    neither the order of the corpus nor repetitions in it matter. *)
Lemma create_charset_same_chars smiles1 smiles2 :
  (∀ c, (∃ smile, smile ∈ smiles1 ∧ c ∈ smile)
        ↔ (∃ smile, smile ∈ smiles2 ∧ c ∈ smile)) →
  _create_charset smiles1 = _create_charset smiles2.
Proof.
  intros H. unfold _create_charset. do 3 f_equal.
  apply set_eq. intros c. by rewrite !elem_of_char_set.
Qed.

Lemma create_charset_Permutation smiles1 smiles2 :
  smiles1 ≡ₚ smiles2 → _create_charset smiles1 = _create_charset smiles2.
Proof.
  intros E. apply create_charset_same_chars. intros c.
  by setoid_rewrite E.
Qed.

Lemma create_charset_duplicates smiles :
  _create_charset (smiles ++ smiles) = _create_charset smiles.
Proof. apply create_charset_same_chars. intros c. set_solver. Qed.

(** The whole charset is free of duplicates exactly when no string of the
    corpus holds a space. *)
Lemma create_charset_NoDup smiles :
  NoDup (_create_charset smiles) ↔ ∀ smile, smile ∈ smiles → space ∉ smile.
Proof.
  unfold _create_charset.
  rewrite NoDup_cons, elem_of_sorted, elem_of_elements, elem_of_char_set.
  split.
  - intros [Hnin _] smile Hin Hsp. apply Hnin. by exists smile.
  - intros H. split.
    + intros (smile & Hin & Hsp). by apply (H smile).
    + rewrite sorted_Permutation. apply NoDup_elements.
Qed.

(** ** Lookup in the charset *)

Lemma index_position cs c : c ∈ cs → index cs c = Ok (position cs c).
Proof.
  intros Hin. unfold index, position.
  destruct (list_find_elem_of (c =.) cs c Hin eq_refl) as [[i y] ->]. done.
Qed.

Lemma index_Raise cs c : c ∉ cs → index cs c = Raise ValueError.
Proof.
  intros Hnin. unfold index.
  destruct (list_find (c =.) cs) as [[i y]|] eqn:E; [|done].
  apply list_find_Some in E as (Hi & <- & _).
  destruct Hnin. by eapply list_elem_of_lookup_2.
Qed.

Lemma lookup_position cs c : c ∈ cs → cs !! position cs c = Some c.
Proof.
  intros Hin. unfold position.
  destruct (list_find_elem_of (c =.) cs c Hin eq_refl) as [[i y] E].
  rewrite E. by apply list_find_Some in E as (Hi & <- & _).
Qed.

Lemma position_first cs c j : (j < position cs c)%nat → cs !! j ≠ Some c.
Proof.
  unfold position. destruct (list_find (c =.) cs) as [[i y]|] eqn:E; [|lia].
  apply list_find_Some in E as (_ & _ & Hfirst).
  intros Hj Hc. by apply (Hfirst j c).
Qed.

Lemma position_lt cs c : c ∈ cs → (position cs c < length cs)%nat.
Proof. intros H%lookup_position. by eapply lookup_lt_Some. Qed.

(** ** One-hot rows *)

Lemma one_hot_row_length n i : length (one_hot_row n i) = n.
Proof. unfold one_hot_row. by rewrite length_fmap, length_seq. Qed.

Lemma one_hot_row_lookup n i j :
  (j < n)%nat → one_hot_row n i !! j = Some (Z.b2z (bool_decide (j = i))).
Proof.
  intros Hj. unfold one_hot_row.
  by rewrite list_lookup_fmap, lookup_seq_lt.
Qed.

Lemma row_sum_one_hot_seq i k n :
  row_sum ((λ ix, Z.b2z (bool_decide (ix = i))) <$> seq k n)
  = Z.b2z (bool_decide (k ≤ i < k + n)%nat).
Proof.
  revert k. induction n as [|n IH]; intros k; simpl.
  - rewrite bool_decide_eq_false_2; [done|lia].
  - fold (row_sum ((λ ix, Z.b2z (bool_decide (ix = i))) <$> seq (S k) n)).
    rewrite IH. repeat case_bool_decide; simpl; lia.
Qed.

Lemma row_sum_one_hot n i : (i < n)%nat → row_sum (one_hot_row n i) = 1.
Proof.
  intros Hi. unfold one_hot_row. rewrite row_sum_one_hot_seq.
  rewrite bool_decide_eq_true_2; [done|lia].
Qed.

(** ** Padding *)

Lemma ljust_length s width :
  length (ljust s width) = Z.to_nat (Z.max (len s) width).
Proof. unfold ljust, len. rewrite length_app, length_replicate. lia. Qed.

Lemma ljust_long s width : width <= len s → ljust s width = s.
Proof.
  unfold ljust, len. intros H.
  replace (Z.to_nat _) with 0%nat by lia. simpl. by rewrite app_nil_r.
Qed.

Lemma Forall_elem_of_ljust (cs : list ascii) s width :
  Forall (.∈ cs) (ljust s width)
  ↔ Forall (.∈ cs) s ∧ (len s < width → space ∈ cs).
Proof.
  unfold ljust, len. rewrite Forall_app. split.
  - intros [Hs Hpad]. split; [done|]. intros Hlt.
    destruct (Z.to_nat (width - Z.of_nat (length s))) as [|n] eqn:E; [lia|].
    simpl in Hpad. by apply Forall_cons in Hpad as [? _].
  - intros [Hs Hsp]. split; [done|].
    destruct (decide (Z.of_nat (length s) < width)) as [Hlt|Hge].
    + apply Forall_replicate. auto.
    + replace (Z.to_nat _) with 0%nat by lia. constructor.
Qed.

(** ** Encoding one string *)

Lemma encode_char_Ok self cs c :
  charset self = Some cs → c ∈ cs →
  (i ← one_hot_index self c; one_hot_array self i)
  = Ok (one_hot_row (length cs) (position cs c)).
Proof.
  intros Hcs Hin. unfold one_hot_index, one_hot_array. rewrite Hcs.
  by rewrite index_position.
Qed.

Lemma encode_char_Raise self cs c :
  charset self = Some cs → c ∉ cs →
  (i ← one_hot_index self c; one_hot_array self i) = Raise ValueError.
Proof.
  intros Hcs Hnin. unfold one_hot_index. rewrite Hcs.
  by rewrite index_Raise.
Qed.

Lemma one_hot_encoded_Ok self cs smile :
  charset self = Some cs → Forall (.∈ cs) (pad_smile self smile) →
  one_hot_encoded self smile
  = Ok ((λ c, one_hot_row (length cs) (position cs c)) <$> pad_smile self smile).
Proof.
  intros Hcs Hall. unfold one_hot_encoded. apply mapM_Ok_fmap.
  eapply Forall_impl; [done|]. intros c Hc. by apply encode_char_Ok.
Qed.

(** With a charset in place the only exception of the encoder is the
    failed lookup. *)
Lemma one_hot_encoded_cases self cs smile :
  charset self = Some cs →
  is_Ok (one_hot_encoded self smile)
  ∨ one_hot_encoded self smile = Raise ValueError.
Proof.
  intros Hcs.
  destruct (decide (Forall (.∈ cs) (pad_smile self smile))) as [Hall|Hnall].
  - left. eexists. by apply one_hot_encoded_Ok.
  - right. apply not_Forall_Exists, Exists_exists in Hnall as (c & Hin & Hc); [|apply _].
    unfold one_hot_encoded. eapply mapM_Raise; [|done|by eapply encode_char_Raise].
    apply Forall_forall. intros x _. destruct (decide (x ∈ cs)).
    + left. eexists. by apply encode_char_Ok.
    + right. by eapply encode_char_Raise.
Qed.

(** ** [np.argmax] *)

Section argmax_lemmas.
Context {A : Type} (gt : A → A → bool) (Hgt : strict_weak_order gt).

Lemma gt_asym x y : gt x y = true → gt y x = false.
Proof.
  intros Hxy. destruct (gt y x) eqn:Hyx; [|done].
  rewrite <-(gt_irrefl gt Hgt x). symmetry. by eapply gt_trans.
Qed.

(** The invariant of the scan: [bv] sits at [best] in the part [pre]
    already read, nothing read is larger, and everything before [best]
    is strictly smaller. *)
Lemma argmax_from_spec r : ∀ pre best bv,
  pre !! best = Some bv →
  (∀ j y, pre !! j = Some y → gt y bv = false) →
  (∀ j y, (j < best)%nat → pre !! j = Some y → gt bv y = true) →
  ∃ x, (pre ++ r) !! argmax_from gt best bv (length pre) r = Some x
       ∧ (∀ j y, (pre ++ r) !! j = Some y → gt y x = false)
       ∧ (∀ j y, (j < argmax_from gt best bv (length pre) r)%nat →
                 (pre ++ r) !! j = Some y → gt x y = true).
Proof.
  induction r as [|x r IH]; intros pre best bv Hbest Hmax Hfirst.
  - simpl. rewrite app_nil_r. eauto.
  - simpl. replace (pre ++ x :: r) with ((pre ++ [x]) ++ r)
      by (by rewrite <-app_assoc).
    replace (S (length pre)) with (length (pre ++ [x]))
      by (rewrite length_app; simpl; lia).
    assert (∀ j y, (pre ++ [x]) !! j = Some y →
                   pre !! j = Some y ∨ (j = length pre ∧ y = x)) as Hsplit.
    { intros j y [?|[Hj Hy]]%lookup_app_Some; [by left|right].
      apply list_lookup_singleton_Some in Hy as [? ->]. split; [lia|done]. }
    destruct (gt x bv) eqn:Hx.
    + assert (∀ j y, pre !! j = Some y → gt x y = true) as Hbelow.
      { intros j y Hy. destruct (gt_cotrans gt Hgt x bv y Hx) as [?|Hybv]; [done|].
        by rewrite (Hmax j y Hy) in Hybv. }
      apply IH.
      * rewrite lookup_app_r, Nat.sub_diag; [done|lia].
      * intros j y [Hy|[_ ->]]%Hsplit; [|by apply gt_irrefl].
        eapply gt_asym, Hbelow, Hy.
      * intros j y Hj [Hy|[-> _]]%Hsplit; [by eapply Hbelow|lia].
    + apply IH.
      * by apply lookup_app_l_Some.
      * intros j y [Hy|[_ ->]]%Hsplit; [by eapply Hmax|done].
      * intros j y Hj [Hy|[-> _]]%Hsplit; [by eapply Hfirst|].
        apply lookup_lt_Some in Hbest. lia.
Qed.

(** [np.argmax] of a row that is not empty: the index of an entry that
    no entry exceeds, every entry before it being strictly smaller. *)
Lemma argmax_spec r :
  r ≠ [] →
  ∃ i x, argmax gt r = Ok i ∧ r !! i = Some x
         ∧ (∀ j y, r !! j = Some y → gt y x = false)
         ∧ (∀ j y, (j < i)%nat → r !! j = Some y → gt x y = true).
Proof.
  destruct r as [|x0 r]; [done|]. intros _.
  destruct (argmax_from_spec r [x0] 0%nat x0) as (x & Hx & Hmax & Hfirst).
  - done.
  - intros [|j] y [= <-]. by apply gt_irrefl.
  - intros j y Hj. lia.
  - exists (argmax_from gt 0%nat x0 1%nat r), x. auto.
Qed.
End argmax_lemmas.

Lemma Z_gtb_strict_weak_order : strict_weak_order Z.gtb.
Proof.
  split.
  - intros x. lia.
  - intros x y z. lia.
  - intros x y z Hxy. destruct (x >? z) eqn:E; [by left|right]. lia.
Qed.

(** The arg-max of a one-hot row is the position of its 1. *)
Lemma argmax_one_hot n i :
  (i < n)%nat → argmax Z.gtb (one_hot_row n i) = Ok i.
Proof.
  intros Hi.
  destruct (argmax_spec Z.gtb Z_gtb_strict_weak_order (one_hot_row n i))
    as (i0 & x & -> & Hx & Hmax & _).
  { intros E. apply (f_equal length) in E.
    rewrite one_hot_row_length in E. simpl in E. lia. }
  f_equal.
  pose proof (lookup_lt_Some _ _ _ Hx) as Hi0.
  rewrite one_hot_row_length in Hi0.
  rewrite one_hot_row_lookup in Hx by done.
  specialize (Hmax i 1). rewrite one_hot_row_lookup in Hmax by done.
  rewrite bool_decide_eq_true_2 in Hmax by done. specialize (Hmax eq_refl).
  case_bool_decide; [done|]. simpl in Hx. by simplify_eq.
Qed.

(** ** [strip] *)

Lemma lstrip_spaces_app n s : lstrip (replicate n space ++ s) = lstrip s.
Proof. induction n as [|n IH]; [done|]. simpl. by rewrite IH. Qed.

Lemma lstrip_id s :
  (∀ c, head s = Some c → isspace c = false) → lstrip s = s.
Proof. destruct s as [|c s]; [done|]. intros H. simpl. by rewrite (H c). Qed.

Lemma rstrip_app_spaces s n : rstrip (s ++ replicate n space) = rstrip s.
Proof.
  unfold rstrip. by rewrite reverse_app, reverse_replicate, lstrip_spaces_app.
Qed.

Lemma rstrip_id s :
  (∀ c, last s = Some c → isspace c = false) → rstrip s = s.
Proof.
  intros H. unfold rstrip. rewrite lstrip_id; [apply reverse_involutive|].
  intros c. rewrite head_reverse. apply H.
Qed.

(** Stripping removes the padding of a string without outer whitespace. *)
Lemma strip_ljust s width : no_outer_whitespace s → strip (ljust s width) = s.
Proof.
  intros [Hhead Hlast]. unfold strip, ljust. destruct s as [|c s].
  - simpl. rewrite <-(app_nil_r (replicate _ _)), lstrip_spaces_app. done.
  - rewrite lstrip_id.
    + rewrite rstrip_app_spaces. by apply rstrip_id.
    + intros c'. simpl. apply Hhead.
Qed.

(** ** [featurize] and the stored charset *)

Lemma featurize_charset_set self cs smiles :
  charset self = Some cs →
  featurize self smiles = (self, mapM (one_hot_encoded self) smiles).
Proof. intros Hcs. unfold featurize. by rewrite Hcs. Qed.

Lemma featurize_charset_unset pad smiles :
  featurize (init None pad) smiles
  = (init (Some (_create_charset smiles)) pad,
     mapM (one_hot_encoded (init (Some (_create_charset smiles)) pad)) smiles).
Proof. reflexivity. Qed.

(** Every string of the corpus a charset was derived from can be encoded
    with it, whatever the padding. *)
Lemma derived_charset_covers pad smiles smile :
  smile ∈ smiles →
  Forall (.∈ _create_charset smiles)
         (pad_smile (init (Some (_create_charset smiles)) pad) smile).
Proof.
  intros Hin. apply Forall_elem_of_ljust. split.
  - apply Forall_forall. intros c Hc.
    apply elem_of_create_charset. right. by exists smile.
  - intros _. apply elem_of_create_charset. by left.
Qed.


(** ** Decoding *)

Lemma untransform_singleton {A} (gt : A → A → bool) self m :
  untransform gt self [m]
  = s ← mapM (untransform_char gt self) m; Ok [[strip s]].
Proof.
  unfold untransform. rewrite mapM_cons, mapM_nil.
  by destruct (mapM (untransform_char gt self) m).
Qed.

Lemma untransform_char_one_hot self cs c :
  charset self = Some cs → c ∈ cs →
  untransform_char Z.gtb self (one_hot_row (length cs) (position cs c)) = Ok c.
Proof.
  intros Hcs Hin. unfold untransform_char.
  rewrite argmax_one_hot by by apply position_lt.
  simpl. rewrite Hcs. simpl. by rewrite lookup_position.
Qed.

Lemma decode_encoded_rows self cs s :
  charset self = Some cs → Forall (.∈ cs) s →
  mapM (untransform_char Z.gtb self)
       ((λ c, one_hot_row (length cs) (position cs c)) <$> s) = Ok s.
Proof.
  intros Hcs Hall. apply mapM_Ok_Forall2.
  induction Hall as [|c s Hc _ IH]; simpl; constructor; [|done].
  by apply untransform_char_one_hot.
Qed.

(** Without a charset the first row decides the exception: the arg-max
    of an empty row, or the subscript of [None]. *)
Lemma untransform_char_unset {A} (gt : A → A → bool) self row :
  charset self = None →
  untransform_char gt self row
  = Raise (match row with [] => ValueError | _ => TypeError end).
Proof.
  intros Hcs. unfold untransform_char. rewrite Hcs. by destruct row.
Qed.

Lemma untransform_cons {A} (gt : A → A → bool) self m z :
  untransform gt self (m :: z)
  = s ← mapM (untransform_char gt self) m;
    out ← untransform gt self z; Ok ([strip s] :: out).
Proof.
  unfold untransform. rewrite mapM_cons.
  by destruct (mapM (untransform_char gt self) m).
Qed.

(** * The claims *)

(** ** Round trip *)

(** C1, as stated, fails: with charset [[' ', 'C']] and pad length 3 the
    string [" C"] is built from the charset, is no longer than the pad
    length and has no trailing space, yet it is encoded as the rows for
    [" C "] and decoded, by [strip], to ["C"]; no reading of the decoded
    batch [[["C"]]] gives back [" C"]. *)
Lemma roundtrip_loses_leading_space :
  Forall (.∈ chars " C") (chars " C")
  ∧ len (chars " C") <= 3
  ∧ last (chars " C") ≠ Some space
  ∧ featurize (init (Some (chars " C")) 3) [chars " C"]
    = (init (Some (chars " C")) 3, Ok [[[1;0]; [0;1]; [1;0]]])
  ∧ untransform Z.gtb (init (Some (chars " C")) 3) [[[1;0]; [0;1]; [1;0]]]
    = Ok [[chars "C"]]
  ∧ concat [[chars "C"]] ≠ [chars " C"].
Proof.
  split_and!; [|done..]. repeat constructor; set_solver.
Qed.

(** C1 (amended): for every string [s] built only from characters of the
    charset, with [len(s) <= pad_length], the space being in the charset
    when [s] is shorter than the pad length, and with neither leading nor
    trailing whitespace, encoding the batch [[s]] succeeds, leaves the
    encoder as it is, and decoding the result gives [[[s]]]: one
    one-element list holding [s]. *)
Theorem roundtrip self cs s :
  charset self = Some cs →
  Forall (.∈ cs) s →
  len s <= pad_length self →
  (len s < pad_length self → space ∈ cs) →
  no_outer_whitespace s →
  ∃ z, featurize self [s] = (self, Ok z)
       ∧ untransform Z.gtb self z = Ok [[s]].
Proof.
  intros Hcs Hall _ Hsp Hws.
  assert (Forall (.∈ cs) (pad_smile self s)) as Hpad
    by by apply Forall_elem_of_ljust.
  eexists. split.
  - rewrite (featurize_charset_set self cs) by done.
    rewrite mapM_cons, (one_hot_encoded_Ok self cs) by done. done.
  - rewrite untransform_singleton, (decode_encoded_rows self cs) by done.
    simpl. unfold pad_smile. by rewrite strip_ljust.
Qed.

Lemma roundtrip_witness :
  ∃ z, featurize (init (Some (chars " CNO")) 5) [chars "CO"]
       = (init (Some (chars " CNO")) 5, Ok z)
       ∧ untransform Z.gtb (init (Some (chars " CNO")) 5) z = Ok [[chars "CO"]].
Proof.
  apply (roundtrip (init (Some (chars " CNO")) 5) (chars " CNO") (chars "CO")).
  - reflexivity.
  - repeat constructor.
  - vm_compute. discriminate.
  - intros _. repeat constructor.
  - split; intros c [= <-]; reflexivity.
Defined.

(** ** Shape of an encoded string *)

(** C2, as stated, fails twice over.  A string longer than the pad length
    keeps all its rows: with charset [[' ', 'C']] and pad length 1,
    ["CC"] is encoded in 2 rows.  And a charset without the space cannot
    encode a string that needs padding: with charset [['C']] and pad
    length 2, ["C"] raises and no matrix is produced. *)
Lemma shape_not_pad_length :
  Forall (.∈ chars " C") (chars "CC")
  ∧ one_hot_encoded (init (Some (chars " C")) 1) (chars "CC")
    = Ok [[0;1]; [0;1]]
  ∧ Z.of_nat (length [[0;1]; [0;1]]) ≠ pad_length (init (Some (chars " C")) 1)
  ∧ Forall (.∈ chars "C") (chars "C")
  ∧ one_hot_encoded (init (Some (chars "C")) 2) (chars "C") = Raise ValueError.
Proof.
  split_and!; [|done..| |done]; repeat constructor.
Qed.

(** C2 (amended): for every input string whose characters are all in the
    charset, the space being in the charset when the string is shorter
    than the pad length, the encoded matrix has [max(len(s), pad_length)]
    rows, so exactly [pad_length] rows when [len(s) <= pad_length]; each
    row has [|charset|] columns and sums to exactly 1. *)
Theorem encoded_shape self cs smile :
  charset self = Some cs →
  Forall (.∈ cs) smile →
  (len smile < pad_length self → space ∈ cs) →
  ∃ m, one_hot_encoded self smile = Ok m
       ∧ Z.of_nat (length m) = Z.max (len smile) (pad_length self)
       ∧ (len smile <= pad_length self → Z.of_nat (length m) = pad_length self)
       ∧ Forall (λ row, length row = length cs ∧ row_sum row = 1) m.
Proof.
  intros Hcs Hall Hsp.
  assert (Forall (.∈ cs) (pad_smile self smile)) as Hpad
    by by apply Forall_elem_of_ljust.
  eexists. split; [by apply (one_hot_encoded_Ok self cs)|].
  rewrite length_fmap. unfold pad_smile at 1 2. rewrite ljust_length.
  split_and!.
  - unfold len. lia.
  - unfold len. lia.
  - apply Forall_fmap. eapply Forall_impl; [exact Hpad|].
    intros c Hc. simpl. split.
    + apply one_hot_row_length.
    + by apply row_sum_one_hot, position_lt.
Qed.

Lemma encoded_shape_witness :
  ∃ m, one_hot_encoded (init (Some (chars " CNO")) 5) (chars "CO") = Ok m
       ∧ Z.of_nat (length m) = Z.max (len (chars "CO")) 5
       ∧ (len (chars "CO") <= 5 → Z.of_nat (length m) = 5)
       ∧ Forall (λ row, length row = 4%nat ∧ row_sum row = 1) m.
Proof.
  apply (encoded_shape (init (Some (chars " CNO")) 5) (chars " CNO") (chars "CO")).
  - reflexivity.
  - repeat constructor.
  - intros _. repeat constructor.
Defined.

(** C10: for every string [s] with [len(s) > pad_length] whose characters
    are all in the charset, [pad_smile] returns [s] unchanged and the
    encoding succeeds with exactly [len(s)] rows: nothing is truncated
    and nothing is raised. *)
Theorem overlong_not_truncated self cs s :
  charset self = Some cs →
  Forall (.∈ cs) s →
  pad_length self < len s →
  pad_smile self s = s
  ∧ ∃ m, one_hot_encoded self s = Ok m ∧ length m = length s.
Proof.
  intros Hcs Hall Hlong.
  assert (pad_smile self s = s) as Hpad by (apply ljust_long; lia).
  split; [done|]. eexists. split.
  - apply (one_hot_encoded_Ok self cs); [done|]. by rewrite Hpad.
  - by rewrite length_fmap, Hpad.
Qed.

Lemma overlong_not_truncated_witness :
  pad_smile (init (Some (chars " C")) 1) (chars "CC") = chars "CC"
  ∧ ∃ m, one_hot_encoded (init (Some (chars " C")) 1) (chars "CC") = Ok m
         ∧ length m = length (chars "CC").
Proof.
  apply (overlong_not_truncated (init (Some (chars " C")) 1) (chars " C")).
  - reflexivity.
  - repeat constructor.
  - vm_compute. reflexivity.
Defined.

(** ** Unknown characters *)

(** C3: for every input string holding a character that is absent from
    the active charset, encoding that string fails with the lookup error
    of [charset.index] (Python's [ValueError]: not in list), no matrix is
    produced, and the error propagates through [featurize] for every
    batch the string is part of, leaving the encoder unchanged. *)
Theorem unknown_character_raises self cs smile c :
  charset self = Some cs →
  c ∈ smile →
  c ∉ cs →
  one_hot_encoded self smile = Raise ValueError
  ∧ ∀ before after,
      featurize self (before ++ smile :: after) = (self, Raise ValueError).
Proof.
  intros Hcs Hin Hnin.
  assert (one_hot_encoded self smile = Raise ValueError) as Hraise.
  { unfold one_hot_encoded.
    apply mapM_Raise with (x := c); [| |by eapply encode_char_Raise].
    - apply Forall_forall. intros x _. destruct (decide (x ∈ cs)).
      + left. eexists. by apply encode_char_Ok.
      + right. by eapply encode_char_Raise.
    - unfold pad_smile, ljust. apply elem_of_app. by left. }
  split; [done|]. intros before after.
  rewrite (featurize_charset_set self cs) by done. f_equal.
  apply mapM_Raise with (x := smile); [|set_solver|done].
  apply Forall_forall. intros x _. by apply (one_hot_encoded_cases self cs).
Qed.

Lemma unknown_character_raises_witness :
  one_hot_encoded (init (Some (chars " CNO")) 5) (chars "CS") = Raise ValueError
  ∧ ∀ before after,
      featurize (init (Some (chars " CNO")) 5) (before ++ chars "CS" :: after)
      = (init (Some (chars " CNO")) 5, Raise ValueError).
Proof.
  apply (unknown_character_raises _ (chars " CNO") (chars "CS") "S"%char).
  - reflexivity.
  - set_solver.
  - set_solver.
Defined.

(** ** The vocabulary builder *)

(** C4: the docstring of [_create_charset] promises a charset without
    duplicates, and the builder prepends the space without looking
    whether the corpus holds one: for the corpus [["C O"]] the space is
    both at index 0 and at index 1. *)
Theorem create_charset_repeats_space :
  _create_charset [chars "C O"] = chars "  CO"
  ∧ ¬ NoDup (_create_charset [chars "C O"]).
Proof.
  split; [by vm_compute|].
  rewrite create_charset_NoDup. intros H.
  apply (H (chars "C O")); set_solver.
Qed.

(** ** The cached vocabulary *)


(** ** Batches of regular shape *)

Lemma equal_heights_short pad smiles :
  Forall (λ s, len s <= pad) smiles → equal_heights pad smiles.
Proof.
  intros Hall s1 s2 H1 H2. rewrite Forall_forall in Hall.
  pose proof (Hall s1 H1). pose proof (Hall s2 H2). lia.
Qed.

(** Strings of equal padded length that the charset covers are encoded
    as a batch of regular shape. *)
Lemma featurized_regular self cs smiles :
  charset self = Some cs →
  equal_heights (pad_length self) smiles →
  Forall (λ s, Forall (.∈ cs) (pad_smile self s)) smiles →
  ∃ batch, mapM (one_hot_encoded self) smiles = Ok batch ∧ regular batch.
Proof.
  intros Hcs Heq Hall.
  exists ((λ s, (λ c, one_hot_row (length cs) (position cs c)) <$> pad_smile self s)
            <$> smiles).
  split.
  - apply mapM_Ok_fmap. eapply Forall_impl; [exact Hall|].
    intros s Hs. by apply one_hot_encoded_Ok.
  - split.
    + intros m1 m2 (s1 & -> & H1)%list_elem_of_fmap (s2 & -> & H2)%list_elem_of_fmap.
      rewrite !length_fmap. unfold pad_smile. rewrite !ljust_length.
      by rewrite (Heq s1 s2).
    + intros m1 m2 r1 r2 (s1 & -> & _)%list_elem_of_fmap
        (s2 & -> & _)%list_elem_of_fmap
        (c1 & -> & _)%list_elem_of_fmap (c2 & -> & _)%list_elem_of_fmap.
      by rewrite !one_hot_row_length.
Qed.

Lemma derived_featurize_regular pad smiles :
  equal_heights pad smiles →
  ∃ batch,
    featurize (init None pad) smiles
    = (init (Some (_create_charset smiles)) pad, Ok batch)
    ∧ regular batch.
Proof.
  intros Heq. rewrite featurize_charset_unset.
  destruct (featurized_regular (init (Some (_create_charset smiles)) pad)
              (_create_charset smiles) smiles) as (batch & -> & Hreg);
    [done|done| |by exists batch].
  apply Forall_forall. intros smile Hin. by apply derived_charset_covers.
Qed.

(** ** An unset charset *)

(** C6, as stated, fails: an encoder without a charset encodes the empty
    corpus without any error (the derived charset is [[' ']], the batch is
    empty), and it decodes the empty batch to the empty list. *)
Lemma unset_charset_no_error :
  featurize (init None 5) [] = (init (Some [space]) 5, Ok [])
  ∧ untransform Z.gtb (init None 5) [] = Ok [].
Proof. split; reflexivity. Qed.

(** C6 (amended): there is no configuration error.  With the charset
    unset, [featurize] derives the charset from its corpus, stores it and,
    for a corpus whose strings give matrices of equal height (as when no
    string is longer than the pad length), succeeds with a batch of
    regular shape: no lookup can fail.  And [untransform] raises as soon
    as its input has a row: [TypeError], from the subscript of [None], or
    [ValueError], from the arg-max of the row when that row is empty. *)
Theorem unset_charset {A} (gt : A → A → bool) pad smiles z row :
  equal_heights pad smiles →
  head (concat z) = Some row →
  (∃ batch, featurize (init None pad) smiles
            = (init (Some (_create_charset smiles)) pad, Ok batch)
            ∧ regular batch)
  ∧ untransform gt (init None pad) z
    = Raise (match row with [] => ValueError | _ => TypeError end).
Proof.
  intros Heq Hrow. split.
  - by apply derived_featurize_regular.
  - induction z as [|m z IH]; [done|]. rewrite untransform_cons.
    destruct m as [|r m].
    + rewrite mapM_nil. simpl in *. by rewrite IH.
    + simpl in Hrow. injection Hrow as ->.
      rewrite mapM_cons, untransform_char_unset by done. done.
Qed.

Lemma unset_charset_witness :
  (∃ batch, featurize (init None 5) [chars "CO"; chars "N"]
            = (init (Some (_create_charset [chars "CO"; chars "N"])) 5, Ok batch)
            ∧ regular batch)
  ∧ untransform Z.gtb (init None 5) [[]; [[0;1]]] = Raise TypeError.
Proof.
  apply (unset_charset Z.gtb 5 [chars "CO"; chars "N"] [[]; [[0;1]]] [0;1]).
  - apply equal_heights_short. repeat constructor; by vm_compute.
  - reflexivity.
Defined.

(** ** The scenario of the specification *)

(** C7: with charset [[' ', 'C', 'N', 'O']] and pad length 5, ["CO"] is
    padded to ["CO   "] and encoded as the five one-hot rows of the
    indices 1, 3, 0, 0, 0; decoding that matrix gives the string ["CO"],
    stripped of its padding (in the one-element list [untransform] wraps
    every string in). *)
Theorem scenario_CO :
  pad_smile scenario (chars "CO") = chars "CO   "
  ∧ one_hot_encoded scenario (chars "CO")
    = Ok (one_hot_row 4 <$> [1; 3; 0; 0; 0]%nat)
  ∧ one_hot_row 4 <$> [1; 3; 0; 0; 0]%nat
    = [[0;1;0;0]; [0;0;0;1]; [1;0;0;0]; [1;0;0;0]; [1;0;0;0]]
  ∧ untransform Z.gtb scenario
      [[[0;1;0;0]; [0;0;0;1]; [1;0;0;0]; [1;0;0;0]; [1;0;0;0]]]
    = Ok [[chars "CO"]].
Proof. split_and!; reflexivity. Qed.

(** ** Arg-max decoding *)

(** C8: for every row that is not empty, over any dtype whose [>] is a
    strict weak order, the decoder selects an index [i] holding a maximal
    entry such that every index holding an entry tied with it is at least
    [i]: among equal maxima the lowest index.  That index is mapped
    through the charset: the decoded character is the element [cs !! i]
    of the charset, which exists whenever the row is no wider than the
    charset, and the subscript raises [IndexError] when there is none. *)
Theorem argmax_lowest_index {A} (gt : A → A → bool) self cs row :
  strict_weak_order gt →
  charset self = Some cs →
  row ≠ [] →
  ∃ i x, argmax gt row = Ok i
         ∧ row !! i = Some x
         ∧ (∀ j y, row !! j = Some y → gt y x = false)
         ∧ (∀ j y, row !! j = Some y → gt x y = false → (i ≤ j)%nat)
         ∧ untransform_char gt self row
           = match cs !! i with
             | Some c => Ok c
             | None => Raise IndexError
             end
         ∧ untransform gt self [[row]]
           = match cs !! i with
             | Some c => Ok [[strip [c]]]
             | None => Raise IndexError
             end
         ∧ ((length row ≤ length cs)%nat →
            ∃ c, cs !! i = Some c ∧ untransform_char gt self row = Ok c).
Proof.
  intros Hgt Hcs Hne.
  destruct (argmax_spec gt Hgt row Hne) as (i & x & Hi & Hx & Hmax & Hfirst).
  assert (untransform_char gt self row
          = match cs !! i with
            | Some c => Ok c
            | None => Raise IndexError
            end) as Hchar.
  { unfold untransform_char, getitem. by rewrite Hi, Hcs. }
  exists i, x. split_and!; [done..| | | |].
  - intros j y Hy Htie. destruct (decide (i ≤ j)%nat) as [|Hlt]; [done|].
    rewrite (Hfirst j y) in Htie; [done|lia|done].
  - done.
  - rewrite untransform_singleton, mapM_cons, mapM_nil, Hchar.
    by destruct (cs !! i).
  - intros Hwidth. apply lookup_lt_Some in Hx.
    destruct (lookup_lt_is_Some_2 cs i) as [c Hc]; [lia|].
    exists c. split; [done|]. by rewrite Hchar, Hc.
Qed.

Lemma argmax_lowest_index_witness :
  ∃ i x, argmax Z.gtb [0; 5; 5; 1] = Ok i
         ∧ [0; 5; 5; 1] !! i = Some x
         ∧ (∀ j y, [0; 5; 5; 1] !! j = Some y → (y >? x) = false)
         ∧ (∀ j y, [0; 5; 5; 1] !! j = Some y → (x >? y) = false → (i ≤ j)%nat)
         ∧ untransform_char Z.gtb scenario [0; 5; 5; 1]
           = match chars " CNO" !! i with
             | Some c => Ok c
             | None => Raise IndexError
             end
         ∧ untransform Z.gtb scenario [[[0; 5; 5; 1]]]
           = match chars " CNO" !! i with
             | Some c => Ok [[strip [c]]]
             | None => Raise IndexError
             end
         ∧ ((length [0; 5; 5; 1] ≤ length (chars " CNO"))%nat →
            ∃ c, chars " CNO" !! i = Some c
                 ∧ untransform_char Z.gtb scenario [0; 5; 5; 1] = Ok c).
Proof.
  apply (argmax_lowest_index Z.gtb scenario (chars " CNO") [0; 5; 5; 1]).
  - exact Z_gtb_strict_weak_order.
  - reflexivity.
  - discriminate.
Defined.

(** ** Decoding arrays of any shape *)

(** C9, as stated, fails: with charset [[' ', 'C', 'N', 'O']] and pad
    length 5, a batch of one matrix of height 1 and row width 2 is decoded
    to ["C"]; nothing checks the shape. *)
Lemma untransform_accepts_any_shape :
  length [0; 1] ≠ length (chars " CNO")
  ∧ Z.of_nat (length [[0; 1]]) ≠ pad_length scenario
  ∧ untransform Z.gtb scenario [[[0; 1]]] = Ok [[chars "C"]].
Proof. split_and!; done. Qed.

(** C9 (amended): [untransform] validates no shape.  Whatever the pad
    length, the heights and the row widths, it succeeds exactly when every
    row is not empty and has its arg-max at an index below [|charset|],
    and then returns one entry per matrix. *)
Theorem untransform_unvalidated {A} (gt : A → A → bool) cs pad z :
  (is_Ok (untransform gt (init (Some cs) pad) z)
   ↔ Forall (Forall (λ row, ∃ i, argmax gt row = Ok i ∧ (i < length cs)%nat)) z)
  ∧ ∀ out, untransform gt (init (Some cs) pad) z = Ok out →
           length out = length z.
Proof.
  split; [|apply mapM_Ok_length].
  unfold untransform. rewrite mapM_is_Ok. apply Forall_iff.
  intros m. split.
  - intros [out Hout].
    destruct (mapM (untransform_char gt (init (Some cs) pad)) m) as [s|e] eqn:Hm;
      [|done].
    assert (is_Ok (mapM (untransform_char gt (init (Some cs) pad)) m)) as Hok
      by by eexists.
    apply mapM_is_Ok in Hok. eapply Forall_impl; [exact Hok|].
    intros row [c Hc]. unfold untransform_char in Hc.
    destruct (argmax gt row) as [i|e]; [|done]. simpl in Hc.
    exists i. split; [done|]. apply lookup_lt_is_Some.
    destruct (cs !! i); [by eexists|done].
  - intros Hall.
    assert (is_Ok (mapM (untransform_char gt (init (Some cs) pad)) m)) as [s ->];
      [|by eexists].
    apply mapM_is_Ok. eapply Forall_impl; [exact Hall|].
    intros row (i & Hi & Hlt). unfold untransform_char. rewrite Hi. simpl.
    destruct (lookup_lt_is_Some_2 cs i Hlt) as [c ->]. by eexists.
Qed.

(** * Further properties of the code *)

(** ** The vocabulary builder, in general *)

(** X1: the charset [_create_charset] builds is the space followed by a
    list that is strictly increasing in code point order and holds exactly
    the characters that occur in some string of the corpus. *)
Theorem create_charset_characterised smiles :
  ∃ l, _create_charset smiles = space :: l
       ∧ StronglySorted char_lt l
       ∧ ∀ c, c ∈ l ↔ ∃ smile, smile ∈ smiles ∧ c ∈ smile.
Proof.
  exists (sorted (elements (char_set smiles))). split_and!.
  - done.
  - apply Sorted_NoDup_strict; [apply sorted_Sorted|].
    rewrite sorted_Permutation. apply NoDup_elements.
  - intros c. by rewrite elem_of_sorted, elem_of_elements, elem_of_char_set.
Qed.

(** X2: two corpora in which the same characters occur give the same
    charset, whatever the order of their strings, the grouping of the
    characters into strings and the repetitions. *)
Theorem create_charset_depends_on_characters smiles1 smiles2 :
  (∀ c, (∃ smile, smile ∈ smiles1 ∧ c ∈ smile)
        ↔ (∃ smile, smile ∈ smiles2 ∧ c ∈ smile)) →
  _create_charset smiles1 = _create_charset smiles2.
Proof.
  intros H. unfold _create_charset. do 3 f_equal.
  apply set_eq. intros c. by rewrite !elem_of_char_set.
Qed.

Lemma create_charset_depends_on_characters_witness :
  _create_charset [chars "CO"; chars "N"]
  = _create_charset [chars "NOC"; chars ""; chars "CO"].
Proof.
  apply (create_charset_depends_on_characters
           [chars "CO"; chars "N"] [chars "NOC"; chars ""; chars "CO"]).
  intros c. unfold chars. simpl. split.
  - intros (smile & Hin & Hc). exists ["N"; "O"; "C"]%char. split; [by left|].
    rewrite !elem_of_cons, elem_of_nil in Hin. rewrite !elem_of_cons.
    destruct Hin as [->|[->|[]]]; rewrite !elem_of_cons in Hc; tauto.
  - intros (smile & Hin & Hc).
    rewrite !elem_of_cons, elem_of_nil in Hin.
    destruct Hin as [->|[->|[->|[]]]].
    + rewrite !elem_of_cons in Hc. destruct Hc as [->|Hc].
      * exists ["N"]%char. rewrite !elem_of_cons. tauto.
      * exists ["C"; "O"]%char. rewrite !elem_of_cons. tauto.
    + by apply elem_of_nil in Hc.
    + exists ["C"; "O"]%char. split; [|done]. rewrite !elem_of_cons. tauto.
Defined.

(** X3: the charset is free of duplicates exactly when no string of the
    corpus holds a space; otherwise the space is in it twice. *)
Theorem create_charset_unique_iff_no_space smiles :
  NoDup (_create_charset smiles) ↔ ∀ smile, smile ∈ smiles → space ∉ smile.
Proof.
  destruct (create_charset_NoDup smiles) as [H1 H2]. split; [exact H1|exact H2].
Qed.

(** X4: the charset is the space alone exactly when the corpus has no
    character at all: it is empty, or all its strings are. *)
Theorem create_charset_only_padding smiles :
  _create_charset smiles = [space] ↔ Forall (.= []) smiles.
Proof.
  unfold _create_charset. split.
  - intros [= Hs]. apply Forall_forall. intros smile Hin.
    destruct smile as [|c smile]; [done|].
    assert (c ∈ sorted (elements (char_set smiles))) as Hc.
    { rewrite elem_of_sorted, elem_of_elements, elem_of_char_set.
      exists (c :: smile). split; [done|]. by left. }
    rewrite Hs in Hc. by apply elem_of_nil in Hc.
  - intros Hall. f_equal.
    assert (char_set smiles = ∅) as ->.
    { apply set_eq. intros c. rewrite elem_of_char_set. split.
      - intros (smile & Hin & Hc). rewrite Forall_forall in Hall.
        rewrite (Hall smile Hin) in Hc. by apply elem_of_nil in Hc.
      - intros H. by apply not_elem_of_empty in H. }
    by rewrite elements_empty.
Qed.

(** ** Lookup and rows *)

(** X5: with a charset in place, [one_hot_index(c)] returns [i] exactly
    when [i] is the first position of [c] in the charset, and raises the
    lookup error exactly when [c] is not in the charset; it raises nothing
    else. *)
Theorem one_hot_index_first cs pad c :
  (∀ i, one_hot_index (init (Some cs) pad) c = Ok i
        ↔ cs !! i = Some c ∧ ∀ j, (j < i)%nat → cs !! j ≠ Some c)
  ∧ (one_hot_index (init (Some cs) pad) c = Raise ValueError ↔ c ∉ cs)
  ∧ (∀ e, one_hot_index (init (Some cs) pad) c = Raise e → e = ValueError).
Proof.
  unfold one_hot_index, index. simpl. split_and!.
  - intros i. destruct (list_find (c =.) cs) as [[i' y]|] eqn:E.
    + apply list_find_Some in E as (Hi' & <- & Hfirst). split.
      * intros [= <-]. split; [done|]. intros j Hj Hc. by apply (Hfirst j c).
      * intros [Hi Hmin]. f_equal.
        destruct (Nat.lt_trichotomy i i') as [Hlt|[->|Hgt]]; [|done|].
        -- by destruct (Hfirst i c).
        -- by destruct (Hmin i' Hgt).
    + split; [done|]. intros [Hi _].
      rewrite list_find_None, Forall_forall in E.
      destruct (E c); [by eapply list_elem_of_lookup_2|done].
  - destruct (list_find (c =.) cs) as [[i' y]|] eqn:E.
    + apply list_find_Some in E as (Hi' & <- & _). split; [done|].
      intros []. by eapply list_elem_of_lookup_2.
    + split; [|done]. intros _ Hin.
      rewrite list_find_None, Forall_forall in E. by destruct (E c).
  - intros e. by destruct (list_find (c =.) cs) as [[i' y]|]; intros [= <-].
Qed.

(** X6: with a charset in place, [one_hot_array(i)] never raises: it
    returns a row of [|charset|] entries, the entry at [j] being 1 when
    [j = i] and 0 otherwise, so a row that sums to 1 when [i] is a position
    of the charset and the zero row when it is not. *)
Theorem one_hot_array_entries cs pad i :
  ∃ row, one_hot_array (init (Some cs) pad) i = Ok row
         ∧ length row = length cs
         ∧ (∀ j, (j < length cs)%nat →
                 row !! j = Some (if decide (j = i) then 1 else 0))
         ∧ row_sum row = (if decide (i < length cs)%nat then 1 else 0).
Proof.
  exists (one_hot_row (length cs) i). split_and!.
  - done.
  - apply one_hot_row_length.
  - intros j Hj. rewrite one_hot_row_lookup by done.
    by destruct (decide (j = i));
      [rewrite bool_decide_eq_true_2|rewrite bool_decide_eq_false_2].
  - unfold one_hot_row. rewrite row_sum_one_hot_seq.
    destruct (decide (i < length cs)%nat);
      [rewrite bool_decide_eq_true_2|rewrite bool_decide_eq_false_2]; [done|lia|done|lia].
Qed.

(** X7: on an encoder that has no charset yet, [one_hot_encoded] raises
    [AttributeError] (the lookup is tried on [None]) for every string that
    is not empty once padded, and returns the matrix without rows for the
    one that is. *)
Theorem one_hot_encoded_without_charset pad smile :
  one_hot_encoded (init None pad) smile
  = if decide (pad_smile (init None pad) smile = [])
    then Ok [] else Raise AttributeError.
Proof.
  unfold one_hot_encoded.
  destruct (pad_smile (init None pad) smile) as [|c s]; [done|].
  rewrite decide_False by done. by rewrite mapM_cons.
Qed.

(** ** Padding *)

(** X8: [pad_smile] only appends spaces; the padded string has
    [max(len(smile), pad_length)] characters, and padding a padded string
    changes nothing. *)
Theorem pad_smile_spec self smile :
  (∃ n, pad_smile self smile = smile ++ replicate n space)
  ∧ len (pad_smile self smile) = Z.max (len smile) (pad_length self)
  ∧ pad_smile self (pad_smile self smile) = pad_smile self smile.
Proof.
  split_and!.
  - by eexists.
  - unfold pad_smile, len. rewrite ljust_length. unfold len. lia.
  - unfold pad_smile. apply ljust_long. unfold len.
    rewrite ljust_length. unfold len. lia.
Qed.

(** X9: trailing spaces are indistinguishable from padding: a string and
    the same string followed by spaces, both within the pad length, are
    padded to the same string and have the same encoding. *)
Theorem trailing_spaces_are_padding self smile n :
  len smile + Z.of_nat n <= pad_length self →
  pad_smile self (smile ++ replicate n space) = pad_smile self smile
  ∧ one_hot_encoded self (smile ++ replicate n space)
    = one_hot_encoded self smile.
Proof.
  intros Hlen.
  assert (pad_smile self (smile ++ replicate n space) = pad_smile self smile)
    as Hpad.
  { unfold pad_smile, ljust, len in *.
    rewrite length_app, length_replicate, <-app_assoc, <-replicate_add.
    do 2 f_equal. lia. }
  split; [done|]. unfold one_hot_encoded. by rewrite Hpad.
Qed.

Lemma trailing_spaces_are_padding_witness :
  pad_smile scenario (chars "CO" ++ replicate 2 space) = pad_smile scenario (chars "CO")
  ∧ one_hot_encoded scenario (chars "CO" ++ replicate 2 space)
    = one_hot_encoded scenario (chars "CO").
Proof.
  apply (trailing_spaces_are_padding scenario (chars "CO") 2).
  vm_compute. discriminate.
Defined.

(** ** More on [strip] *)

Lemma lstrip_nil_app s t : lstrip s = [] → lstrip (s ++ t) = lstrip t.
Proof.
  induction s as [|c s IH]; [done|]. simpl.
  destruct (isspace c); [done|discriminate].
Qed.

Lemma lstrip_nonnil_app s t : lstrip s ≠ [] → lstrip (s ++ t) = lstrip s ++ t.
Proof.
  induction s as [|c s IH]; [done|]. simpl.
  destruct (isspace c); [done|]. by intros _.
Qed.

Lemma strip_app_spaces s n : strip (s ++ replicate n space) = strip s.
Proof.
  unfold strip. destruct (decide (lstrip s = [])) as [E|E].
  - rewrite lstrip_nil_app, E by done.
    by rewrite <-(app_nil_r (replicate n space)), lstrip_spaces_app.
  - rewrite lstrip_nonnil_app by done. apply rstrip_app_spaces.
Qed.

(** Stripping a padded string is stripping the string. *)
Lemma strip_ljust_any s width : strip (ljust s width) = strip s.
Proof. apply strip_app_spaces. Qed.

Lemma lstrip_suffix s : ∃ k, s = k ++ lstrip s.
Proof.
  induction s as [|c s [k IH]]; [by exists []|]. simpl.
  destruct (isspace c).
  - exists (c :: k). simpl. by rewrite <-IH.
  - by exists [].
Qed.

Lemma lstrip_head s c : head (lstrip s) = Some c → isspace c = false.
Proof.
  induction s as [|c' s IH]; [done|]. simpl.
  destruct (isspace c') eqn:E; [done|]. by intros [= <-].
Qed.

Lemma rstrip_prefix s : ∃ k, s = rstrip s ++ k.
Proof.
  unfold rstrip. destruct (lstrip_suffix (reverse s)) as [k Hk].
  exists (reverse k). rewrite <-reverse_app, <-Hk. by rewrite reverse_involutive.
Qed.

Lemma strip_infix s : ∃ k1 k2, s = k1 ++ strip s ++ k2.
Proof.
  destruct (lstrip_suffix s) as [k1 H1].
  destruct (rstrip_prefix (lstrip s)) as [k2 H2].
  exists k1, k2. unfold strip. by rewrite <-H2.
Qed.

(** What [strip] returns has no whitespace at either end. *)
Lemma strip_no_outer_whitespace s : no_outer_whitespace (strip s).
Proof.
  split; intros c Hc.
  - apply (lstrip_head s). destruct (rstrip_prefix (lstrip s)) as [k Hk].
    rewrite Hk. unfold strip in Hc.
    destruct (rstrip (lstrip s)); [done|]. done.
  - unfold strip, rstrip in Hc. rewrite last_reverse in Hc.
    by apply lstrip_head in Hc.
Qed.

(** ** More on the monad *)

Lemma mapM_Raise_inv {A B} (f : A → result B) l e :
  mapM f l = Raise e → ∃ x, x ∈ l ∧ f x = Raise e.
Proof.
  induction l as [|x l IH]; [done|]. rewrite mapM_cons.
  destruct (f x) as [y|e'] eqn:Hx; simpl.
  - destruct (mapM f l) as [k|e'] eqn:Hl; simpl; [done|].
    intros [= ->]. destruct IH as (x' & Hin & Hx'); [done|].
    exists x'. split; [by right|done].
  - intros [= ->]. exists x. split; [by left|done].
Qed.

Lemma mapM_cases {A B} (f : A → result B) e l :
  Forall (λ x, is_Ok (f x) ∨ f x = Raise e) l →
  is_Ok (mapM f l) ∨ mapM f l = Raise e.
Proof.
  intros Hall. destruct (mapM f l) as [k|e'] eqn:E; [left; by eexists|right].
  apply mapM_Raise_inv in E as (x & Hin & Hx).
  rewrite Forall_forall in Hall. destruct (Hall x Hin) as [[y Hy]|Hy]; congruence.
Qed.

(** ** Encoding, inverted *)

Lemma one_hot_encoded_Ok_inv self cs smile m :
  charset self = Some cs →
  one_hot_encoded self smile = Ok m →
  Forall (.∈ cs) (pad_smile self smile)
  ∧ m = (λ c, one_hot_row (length cs) (position cs c)) <$> pad_smile self smile.
Proof.
  intros Hcs Hm.
  destruct (decide (Forall (.∈ cs) (pad_smile self smile))) as [Hall|Hnall].
  - split; [done|]. rewrite (one_hot_encoded_Ok self cs) in Hm by done.
    by injection Hm.
  - apply not_Forall_Exists, Exists_exists in Hnall as (c & Hin & Hc); [|apply _].
    unfold one_hot_encoded in Hm.
    rewrite (mapM_Raise _ ValueError _ c) in Hm; [done| |done|by eapply encode_char_Raise].
    apply Forall_forall. intros x _. destruct (decide (x ∈ cs)).
    + left. eexists. by apply encode_char_Ok.
    + right. by eapply encode_char_Raise.
Qed.

Lemma one_hot_encoded_is_Ok self cs smile :
  charset self = Some cs →
  is_Ok (one_hot_encoded self smile)
  ↔ Forall (.∈ cs) smile ∧ (len smile < pad_length self → space ∈ cs).
Proof.
  intros Hcs. rewrite <-Forall_elem_of_ljust. split.
  - intros [m Hm]. by apply (one_hot_encoded_Ok_inv self cs smile m).
  - intros Hall. eexists. by apply (one_hot_encoded_Ok self cs).
Qed.

Lemma one_hot_encoded_unknown self cs smile c :
  charset self = Some cs → c ∈ smile → c ∉ cs →
  one_hot_encoded self smile = Raise ValueError.
Proof.
  intros Hcs Hin Hnin.
  destruct (one_hot_encoded_cases self cs smile Hcs) as [Hok|]; [|done].
  apply (one_hot_encoded_is_Ok self cs) in Hok as [Hall _]; [|done].
  rewrite Forall_forall in Hall. destruct Hnin. by apply Hall.
Qed.

(** Decoding what was encoded gives the stripped strings, each in a list
    of its own. *)
Lemma untransform_encoded self cs smiles batch :
  charset self = Some cs →
  mapM (one_hot_encoded self) smiles = Ok batch →
  untransform Z.gtb self batch = Ok ((λ s, [strip s]) <$> smiles).
Proof.
  intros Hcs Hbatch%mapM_Ok_Forall2. unfold untransform.
  apply mapM_Ok_Forall2.
  induction Hbatch as [|s m smiles batch Hm _ IH]; simpl; constructor; [|done].
  apply (one_hot_encoded_Ok_inv self cs) in Hm as [Hall ->]; [|done].
  rewrite (decode_encoded_rows self cs) by done. simpl.
  unfold pad_smile. by rewrite strip_ljust_any.
Qed.

(** ** Encoding and decoding of batches *)

(** X10: with a charset in place, two strings with the same encoding are
    the same string once padded: the encoding loses nothing but the
    difference between trailing spaces and padding. *)
Theorem one_hot_encoded_injective self cs smile1 smile2 m :
  charset self = Some cs →
  one_hot_encoded self smile1 = Ok m →
  one_hot_encoded self smile2 = Ok m →
  pad_smile self smile1 = pad_smile self smile2.
Proof.
  intros Hcs [Hall1 E1]%(one_hot_encoded_Ok_inv self cs); [|done].
  intros [Hall2 E2]%(one_hot_encoded_Ok_inv self cs); [|done].
  pose proof (decode_encoded_rows self cs _ Hcs Hall1) as D1.
  pose proof (decode_encoded_rows self cs _ Hcs Hall2) as D2.
  rewrite <-E1 in D1. rewrite <-E2 in D2. congruence.
Qed.

Lemma one_hot_encoded_injective_witness :
  pad_smile scenario (chars "CO") = pad_smile scenario (chars "CO ").
Proof.
  apply (one_hot_encoded_injective scenario (chars " CNO") (chars "CO") (chars "CO ")
           [[0;1;0;0]; [0;0;0;1]; [1;0;0;0]; [1;0;0;0]; [1;0;0;0]]);
    reflexivity.
Defined.

(** X11: with a charset in place, [featurize] never changes the
    encoder and is all-or-nothing.  If it returns, every character of
    every string is in the charset (and the space is, whenever a string is
    shorter than the pad length) and the batch holds the encoding of every
    string, in the order of the input.  If some string fails that
    condition the whole call raises the lookup error.  And if all strings
    meet it and give matrices of equal height, the call succeeds with a
    batch of regular shape. *)
Theorem featurize_all_or_nothing cs pad smiles :
  (featurize (init (Some cs) pad) smiles).1 = init (Some cs) pad
  ∧ (is_Ok (featurize (init (Some cs) pad) smiles).2 →
     Forall (λ s, Forall (.∈ cs) s ∧ (len s < pad → space ∈ cs)) smiles)
  ∧ (¬ Forall (λ s, Forall (.∈ cs) s ∧ (len s < pad → space ∈ cs)) smiles →
     (featurize (init (Some cs) pad) smiles).2 = Raise ValueError)
  ∧ (equal_heights pad smiles →
     Forall (λ s, Forall (.∈ cs) s ∧ (len s < pad → space ∈ cs)) smiles →
     ∃ batch, (featurize (init (Some cs) pad) smiles).2 = Ok batch
              ∧ regular batch)
  ∧ ∀ batch, (featurize (init (Some cs) pad) smiles).2 = Ok batch →
             Forall2 (λ s m, one_hot_encoded (init (Some cs) pad) s = Ok m)
                     smiles batch.
Proof.
  rewrite (featurize_charset_set _ cs) by done. simpl.
  assert (is_Ok (mapM (one_hot_encoded (init (Some cs) pad)) smiles)
          ↔ Forall (λ s, Forall (.∈ cs) s ∧ (len s < pad → space ∈ cs)) smiles)
    as Hiff.
  { rewrite mapM_is_Ok. apply Forall_iff. intros s.
    by apply (one_hot_encoded_is_Ok (init (Some cs) pad) cs). }
  split_and!.
  - done.
  - apply Hiff.
  - intros Hnot.
    destruct (mapM_cases (one_hot_encoded (init (Some cs) pad)) ValueError smiles)
      as [Hok|Hraise]; [|by destruct Hnot; apply Hiff|done].
    apply Forall_forall. intros s _. by apply (one_hot_encoded_cases _ cs).
  - intros Heq Hall.
    apply (featurized_regular (init (Some cs) pad) cs); [done..|].
    eapply Forall_impl; [exact Hall|]. intros s Hs.
    by apply Forall_elem_of_ljust.
  - intros batch. apply mapM_Ok_Forall2.
Qed.

(** X12: with a charset in place, decoding the batch [featurize] returned
    gives, for every input string in order, the one-element list of that
    string stripped of its outer whitespace: over-long strings come back
    whole, and only whitespace at the ends is lost. *)
Theorem decode_encode_is_strip cs pad smiles batch :
  (featurize (init (Some cs) pad) smiles).2 = Ok batch →
  untransform Z.gtb (init (Some cs) pad) batch = Ok ((λ s, [strip s]) <$> smiles).
Proof.
  rewrite (featurize_charset_set _ cs) by done. simpl.
  intros Hbatch. by apply (untransform_encoded _ cs smiles).
Qed.

Lemma decode_encode_is_strip_witness :
  untransform Z.gtb (init (Some (chars " C")) 1) [[[1;0]; [0;1]; [0;1]]; [[0;1]]]
  = Ok ((λ s, [strip s]) <$> [chars " CC"; chars "C"]).
Proof.
  apply (decode_encode_is_strip (chars " C") 1 [chars " CC"; chars "C"]).
  reflexivity.
Defined.

(** X13: an encoder constructed without a charset round-trips its
    corpus.  The first [featurize] call stores the derived charset;
    whenever it returns a batch, decoding that batch with the encoder it
    leaves gives back every string stripped of its outer whitespace; and
    it does return one, of regular shape, for every corpus whose strings
    give matrices of equal height. *)
Theorem derived_charset_roundtrip pad smiles :
  (featurize (init None pad) smiles).1
  = init (Some (_create_charset smiles)) pad
  ∧ (∀ batch,
       (featurize (init None pad) smiles).2 = Ok batch →
       untransform Z.gtb (init (Some (_create_charset smiles)) pad) batch
       = Ok ((λ s, [strip s]) <$> smiles))
  ∧ (equal_heights pad smiles →
     ∃ batch, (featurize (init None pad) smiles).2 = Ok batch
              ∧ regular batch).
Proof.
  split_and!.
  - done.
  - rewrite featurize_charset_unset. simpl. intros batch Hbatch.
    by apply (untransform_encoded _ (_create_charset smiles) smiles).
  - intros Heq.
    destruct (derived_featurize_regular pad smiles Heq) as (batch & -> & Hreg).
    by exists batch.
Qed.

(** X14: once the vocabulary is cached, a later corpus that holds a
    character that was not in the first one (and is not the space) cannot
    be encoded: the later call raises the lookup error and leaves the
    encoder as the first call left it. *)
Theorem cached_vocabulary_rejects_new_characters pad A B smile c :
  smile ∈ B →
  c ∈ smile →
  c ∉ _create_charset A →
  featurize (featurize (init None pad) A).1 B
  = ((featurize (init None pad) A).1, Raise ValueError).
Proof.
  intros Hin Hc Hnew. rewrite featurize_charset_unset. simpl.
  rewrite (featurize_charset_set _ (_create_charset A)) by done. f_equal.
  apply mapM_Raise with (x := smile); [|done|].
  - apply Forall_forall. intros x _.
    by apply (one_hot_encoded_cases _ (_create_charset A)).
  - by apply (one_hot_encoded_unknown _ (_create_charset A) smile c).
Qed.

Lemma cached_vocabulary_rejects_new_characters_witness :
  featurize (featurize (init None 5) [chars "CO"]).1 [chars "CO"; chars "CN"]
  = ((featurize (init None 5) [chars "CO"]).1, Raise ValueError).
Proof.
  apply (cached_vocabulary_rejects_new_characters
           5 [chars "CO"] [chars "CO"; chars "CN"] (chars "CN") "N"%char).
  - right. left.
  - right. left.
  - intros [H|(s & Hs & Hc)]%elem_of_create_charset; [discriminate|].
    apply list_elem_of_singleton in Hs as ->. unfold chars in Hc. simpl in Hc.
    rewrite !elem_of_cons, elem_of_nil in Hc. destruct Hc as [|[|[]]]; discriminate.
Defined.

(** X15: row [j] of an encoded string marks the first position of the
    [j]-th character of the padded string: its entry at [k] is 1 exactly
    when [k] is the first index of the charset that holds that character,
    also when the charset holds the character more than once. *)
Theorem encoded_row_marks_first_position cs pad smile m j row :
  one_hot_encoded (init (Some cs) pad) smile = Ok m →
  m !! j = Some row →
  ∃ c, pad_smile (init (Some cs) pad) smile !! j = Some c
       ∧ ∀ k, row !! k = Some 1
              ↔ cs !! k = Some c ∧ ∀ k', (k' < k)%nat → cs !! k' ≠ Some c.
Proof.
  intros [Hall ->]%(one_hot_encoded_Ok_inv _ cs); [|done].
  rewrite list_lookup_fmap. intros Hrow.
  destruct (pad_smile (init (Some cs) pad) smile !! j) as [c|] eqn:Hc; [|done].
  simpl in Hrow. injection Hrow as <-. exists c. split; [done|].
  assert (c ∈ cs) as Hin.
  { rewrite Forall_forall in Hall. by eapply Hall, list_elem_of_lookup_2. }
  intros k. split.
  - intros Hk. pose proof (lookup_lt_Some _ _ _ Hk) as Hlt.
    rewrite one_hot_row_length in Hlt.
    rewrite one_hot_row_lookup in Hk by done.
    case_bool_decide as E; [|done]. subst k. split.
    + by apply lookup_position.
    + intros k'. apply position_first.
  - intros [Hk Hfirst]. pose proof (lookup_lt_Some _ _ _ Hk) as Hlt.
    rewrite one_hot_row_lookup by done.
    rewrite bool_decide_eq_true_2; [done|].
    destruct (Nat.lt_trichotomy k (position cs c)) as [H|[H|H]]; [|done|].
    + by destruct (position_first cs c k H).
    + destruct (Hfirst _ H). by apply lookup_position.
Qed.

Lemma encoded_row_marks_first_position_witness :
  ∃ c, pad_smile (init (Some (chars " CC")) 2) (chars "C") !! 0%nat = Some c
       ∧ ∀ k, [0; 1; 0] !! k = Some 1
              ↔ chars " CC" !! k = Some c
                ∧ ∀ k', (k' < k)%nat → chars " CC" !! k' ≠ Some c.
Proof.
  apply (encoded_row_marks_first_position (chars " CC") 2 (chars "C")
           [[0; 1; 0]; [1; 0; 0]] 0%nat [0; 1; 0]); reflexivity.
Defined.

(** ** The decoder, in general *)

Lemma argmax_from_lt {A} (gt : A → A → bool) r : ∀ best bv k,
  (best < k)%nat → (argmax_from gt best bv k r < k + length r)%nat.
Proof.
  induction r as [|x r IH]; intros best bv k Hlt; simpl; [lia|].
  destruct (gt x bv).
  - specialize (IH k x (S k)). lia.
  - specialize (IH best bv (S k)). lia.
Qed.

Lemma argmax_lt {A} (gt : A → A → bool) r i :
  argmax gt r = Ok i → (i < length r)%nat.
Proof.
  destruct r as [|x r]; [done|]. intros [= <-].
  pose proof (argmax_from_lt gt r 0%nat x 1%nat). simpl. lia.
Qed.

Lemma untransform_char_Ok_inv {A} (gt : A → A → bool) self cs row c :
  charset self = Some cs →
  untransform_char gt self row = Ok c →
  c ∈ cs.
Proof.
  intros Hcs. unfold untransform_char. rewrite Hcs.
  destruct (argmax gt row) as [i|]; [|done]. simpl.
  destruct (cs !! i) as [c'|] eqn:E; [|done]. intros [= <-].
  by eapply list_elem_of_lookup_2.
Qed.

Lemma untransform_char_Raise_inv {A} (gt : A → A → bool) self cs row e :
  charset self = Some cs →
  untransform_char gt self row = Raise e →
  (e = ValueError ∧ row = [])
  ∨ (e = IndexError ∧ (length cs < length row)%nat).
Proof.
  intros Hcs. unfold untransform_char. rewrite Hcs.
  destruct (argmax gt row) as [i|e'] eqn:Hi; simpl.
  - destruct (cs !! i) as [c|] eqn:E; [done|]. intros [= <-]. right.
    split; [done|]. apply argmax_lt in Hi. apply lookup_ge_None in E. lia.
  - destruct row; [|done]. injection Hi as <-. intros [= <-]. by left.
Qed.

(** X16: whatever [untransform] returns is one entry per matrix, in
    order, each a one-element list whose string has no whitespace at
    either end, is no longer than the matrix has rows, and is made of
    characters of the charset. *)
Theorem untransform_output {A} (gt : A → A → bool) self z out :
  untransform gt self z = Ok out →
  Forall2 (λ m entry, ∃ s, entry = [s]
                           ∧ no_outer_whitespace s
                           ∧ (length s ≤ length m)%nat
                           ∧ ∀ cs, charset self = Some cs → Forall (.∈ cs) s)
          z out.
Proof.
  unfold untransform. intros H%mapM_Ok_Forall2.
  eapply Forall2_impl; [exact H|]. clear H. intros m entry Hm. simpl in Hm.
  destruct (mapM (untransform_char gt self) m) as [s|e] eqn:Hs; [|done].
  simpl in Hm. injection Hm as <-. exists (strip s). split_and!.
  - done.
  - apply strip_no_outer_whitespace.
  - apply mapM_Ok_length in Hs. destruct (strip_infix s) as (k1 & k2 & Hk).
    apply (f_equal length) in Hk. rewrite !length_app in Hk. lia.
  - intros cs Hcs. apply mapM_Ok_Forall2 in Hs.
    assert (Forall (.∈ cs) s) as Hall.
    { clear -Hs Hcs. induction Hs as [|row c m s Hc _ IH]; constructor; [|done].
      by eapply untransform_char_Ok_inv. }
    destruct (strip_infix s) as (k1 & k2 & Hk). rewrite Hk in Hall.
    by apply Forall_app in Hall as [_ [? _]%Forall_app].
Qed.

Lemma untransform_output_witness :
  Forall2 (λ m entry, ∃ s, entry = [s]
                           ∧ no_outer_whitespace s
                           ∧ (length s ≤ length m)%nat
                           ∧ ∀ cs, charset scenario = Some cs → Forall (.∈ cs) s)
          [[[0; 5; 5; 1]; [9; 1]]] [[chars "C"]].
Proof.
  apply (untransform_output Z.gtb scenario [[[0; 5; 5; 1]; [9; 1]]] [[chars "C"]]).
  reflexivity.
Defined.

(** X18: with a charset in place, [untransform] raises only in two
    cases: [ValueError], and then some matrix has an empty row, or
    [IndexError], and then some row is wider than the charset.  Rows that
    are not empty and no wider than the charset are always decoded. *)
Theorem untransform_errors {A} (gt : A → A → bool) cs pad z e :
  untransform gt (init (Some cs) pad) z = Raise e →
  (e = ValueError ∧ ∃ m, m ∈ z ∧ [] ∈ m)
  ∨ (e = IndexError
     ∧ ∃ m row, m ∈ z ∧ row ∈ m ∧ (length cs < length row)%nat).
Proof.
  unfold untransform. intros (m & Hm & He)%mapM_Raise_inv. simpl in He.
  destruct (mapM (untransform_char gt (init (Some cs) pad)) m) as [s|e'] eqn:Hs;
    [done|].
  simpl in He. injection He as ->.
  apply mapM_Raise_inv in Hs as (row & Hrow & Hr).
  apply (untransform_char_Raise_inv gt _ cs) in Hr; [|done].
  destruct Hr as [[-> ->]|[-> Hw]].
  - left. split; [done|]. by exists m.
  - right. split; [done|]. by exists m, row.
Qed.

Lemma untransform_errors_witness :
  (IndexError = ValueError ∧ ∃ m, m ∈ [[[0; 1; 0; 0; 7]]] ∧ [] ∈ m)
  ∨ (IndexError = IndexError
     ∧ ∃ m row, m ∈ [[[0; 1; 0; 0; 7]]] ∧ row ∈ m
                ∧ (length (chars " CNO") < length row)%nat).
Proof.
  apply (untransform_errors Z.gtb (chars " CNO") 5 [[[0; 1; 0; 0; 7]]] IndexError).
  reflexivity.
Defined.

(** ** The base class *)

Section Featurizer_lemmas.
Context {Mol Feat E : Type} (_featurize : Mol → E + list Feat).

Lemma featurize_loop_inr mols : ∀ features feats,
  featurize_loop _featurize features mols = inr feats
  ↔ ∃ rest, feats = features ++ rest ∧ Forall2 (feature_of _featurize) mols rest.
Proof.
  induction mols as [|mol mols IH]; intros features feats; simpl.
  - split.
    + intros [= <-]. exists []. by rewrite app_nil_r.
    + intros (rest & -> & ->%Forall2_nil_inv_l). by rewrite app_nil_r.
  - assert (∀ x, (∃ rest, feats = (features ++ [x]) ++ rest
                          ∧ Forall2 (feature_of _featurize) mols rest)
                 ↔ ∃ rest, feats = features ++ x :: rest
                           ∧ Forall2 (feature_of _featurize) mols rest) as Hshift.
    { intros x. by setoid_rewrite <-app_assoc. }
    destruct mol as [m|].
    + destruct (_featurize m) as [e|x] eqn:Hm.
      * split; [done|].
        intros (rest & _ & (x & rest' & Hx & _ & _)%Forall2_cons_inv_l).
        simpl in Hx. congruence.
      * rewrite IH, Hshift. split.
        -- intros (rest & -> & Hrest). exists (x :: rest).
           split; [done|]. by constructor.
        -- intros (rest & -> & (x' & rest' & Hx & Hrest & ->)%Forall2_cons_inv_l).
           simpl in Hx. assert (x' = x) as -> by congruence. by exists rest'.
    + rewrite IH, Hshift. split.
      * intros (rest & -> & Hrest). exists ([] :: rest).
        split; [done|]. by constructor.
      * intros (rest & -> & (x' & rest' & Hx & Hrest & ->)%Forall2_cons_inv_l).
        simpl in Hx. subst x'. by exists rest'.
Qed.

Lemma featurize_loop_inl pre : ∀ features m post e,
  Forall (λ mol, ∃ x, feature_of _featurize mol x) pre →
  _featurize m = inl e →
  featurize_loop _featurize features (pre ++ Some m :: post) = inl e.
Proof.
  induction pre as [|mol pre IH]; intros features m post e Hpre Hm; simpl.
  - by rewrite Hm.
  - apply Forall_cons in Hpre as [[x Hx] Hpre]. destruct mol as [m'|].
    + simpl in Hx. rewrite Hx. by apply IH.
    + by apply IH.
Qed.
End Featurizer_lemmas.

Lemma abstract_featurize_loop {Mol Feat : Type} (mols : list (option Mol)) :
  ∀ features : list (list Feat),
  featurize_loop Featurizer__featurize features mols
  = if forallb (λ mol, match mol with None => true | Some _ => false end) mols
    then inr (features ++ replicate (length mols) [])
    else inl NotImplementedError.
Proof.
  induction mols as [|[m|] mols IH]; intros features; simpl.
  - by rewrite app_nil_r.
  - done.
  - rewrite IH. by rewrite <-app_assoc.
Qed.

(** X19: whatever [Featurizer.featurize] returns pairs the molecules
    off in order, the empty array standing for every molecule that is
    [None] and the vector [_featurize] returns for every other one.  And
    it does return that list when [_featurize] succeeds on every molecule
    that is not [None] and the arrays, the empty ones included, all have
    the same length. *)
Theorem Featurizer_featurize_spec {Mol Feat E : Type}
    (_featurize : Mol → E + list Feat) mols feats :
  (Featurizer_featurize _featurize mols = inr feats →
   Forall2 (λ mol x, match mol with
                     | None => x = []
                     | Some m => _featurize m = inr x
                     end) mols feats)
  ∧ (Forall2 (λ mol x, match mol with
                       | None => x = []
                       | Some m => _featurize m = inr x
                       end) mols feats →
     (∀ x y, x ∈ feats → y ∈ feats → length x = length y) →
     Featurizer_featurize _featurize mols = inr feats).
Proof.
  unfold Featurizer_featurize. rewrite featurize_loop_inr. split.
  - by intros (rest & -> & Hrest).
  - intros H _. by exists feats.
Qed.

(** X20: the base class itself, whose [_featurize] is not defined, can
    only featurize molecules that are [None]: on a list of [None]s it
    returns that many empty arrays, and as soon as the list holds a
    molecule the call, also through [__call__], raises
    [NotImplementedError]. *)
Theorem Featurizer_abstract {Mol Feat : Type} (mols : list (option Mol)) :
  (Featurizer_call (Feat := Feat) Featurizer__featurize mols
   = inl NotImplementedError
   ↔ ∃ m, Some m ∈ mols)
  ∧ (∀ feats : list (list Feat),
       Featurizer_call Featurizer__featurize mols = inr feats
       ↔ Forall (.= None) mols ∧ feats = replicate (length mols) []).
Proof.
  unfold Featurizer_call, Featurizer_featurize.
  setoid_rewrite abstract_featurize_loop. simpl.
  destruct (forallb _ mols) eqn:E.
  - assert (Forall (.= None) mols) as Hnone.
    { clear -E. induction mols as [|[m|] mols IH]; [done..|].
      constructor; [done|]. by apply IH. }
    split.
    + split; [done|]. intros (m & Hm).
      rewrite Forall_forall in Hnone. by specialize (Hnone _ Hm).
    + intros feats. split; [by intros [= <-]|by intros [_ ->]].
  - assert (∃ m : Mol, Some m ∈ mols) as Hsome.
    { clear -E. induction mols as [|[m|] mols IH]; [done| |].
      - exists m. by left.
      - destruct IH as [m Hm]; [done|]. exists m. by right. }
    split.
    + done.
    + intros feats. split; [done|]. intros [Hnone _].
      destruct Hsome as [m Hm]. rewrite Forall_forall in Hnone.
      by specialize (Hnone _ Hm).
Qed.

(** X21: [Featurizer.featurize] stops at the first molecule whose
    [_featurize] raises: when the molecules before it are featurized
    without error, the call raises that exception and returns none of the
    features computed so far, whatever follows in the list. *)
Theorem Featurizer_first_failure {Mol Feat E : Type}
    (_featurize : Mol → E + list Feat) pre m post e :
  Forall (λ mol, match mol with
                 | None => True
                 | Some m' => ∃ x, _featurize m' = inr x
                 end) pre →
  _featurize m = inl e →
  Featurizer_featurize _featurize (pre ++ Some m :: post) = inl e.
Proof.
  intros Hpre Hm. apply featurize_loop_inl; [|done].
  eapply Forall_impl; [exact Hpre|]. intros [m'|]; simpl; [done|].
  intros _. by exists [].
Qed.

Lemma Featurizer_first_failure_witness :
  Featurizer_featurize
    (λ n : nat, if (n =? 0)%nat then inl ValueError else inr [Z.of_nat n])
    ([None; Some 1%nat] ++ Some 0%nat :: [Some 2%nat])
  = inl ValueError.
Proof.
  apply (Featurizer_first_failure
           (λ n : nat, if (n =? 0)%nat then inl ValueError else inr [Z.of_nat n])
           [None; Some 1%nat] 0%nat [Some 2%nat] ValueError).
  - repeat constructor. by eexists.
  - reflexivity.
Defined.
